(** * QAEvaluator: the composite question-answering evaluator

    Shallow embedding of
    [promptflow/evals/evaluators/qa/__init__.py] (class [QAEvaluator]).

    The class holds a list of six sub-evaluators and a [_parallel] flag.
    [__call__] hands one input tuple to every sub-evaluator and merges the
    dictionaries they return with [dict.update], either in a plain loop or
    through a thread pool whose futures are drained in the order in which
    [as_completed] yields them.

    Python objects are modelled by explicit state passing: the state holds
    the attributes of [self] and a trace of the calls made to the outside
    (sub-evaluator constructors, sub-evaluator calls, pool submissions).
    Exceptions are the left summand of the result. *)

From stdpp Require Import gmap strings list fin_maps.

Section QA.

(** Types the source leaves to its surroundings: the model configuration,
    the exceptions, the scores in a metric dictionary and the values of the
    extra keyword arguments. *)
Context {Config Exn Score Value : Type}.

(** ** Data *)

(** The keyword arguments one sub-evaluator call receives:
    [question=..., answer=..., context=..., ground_truth=..., **kwargs]. *)
Record EvaluationInput : Type := mkInput {
  question : string;
  answer : string;
  context : string;
  ground_truth : string;
  kwargs : gmap string Value;
}.

(** A sub-evaluator instance is a callable that returns a metric dictionary
    or raises. What it does is a function of the keyword arguments it is
    called with; that it was called is recorded in the trace below. *)
Definition Evaluator : Type := EvaluationInput → Exn + gmap string Score.

(** The six imported evaluator classes. *)
Inductive EvaluatorClass : Type :=
  | Groundedness | Relevance | Coherence | Fluency | Similarity | F1Score.

(** Calls that leave the component. [Construct cls cfg] is a call of the
    constructor of [cls], with the model configuration it was given, if any.
    [Invoke ev input] is a direct call of [ev] with the keyword arguments
    [input], made by the sequential loop. [Submit ev input] is
    [executor.submit] of the same call: the pool runs the
    call on a worker thread, and the pool's [with] block waits for every
    submitted call before it is left, normally or by an exception. *)
Inductive Event : Type :=
  | Construct (cls : EvaluatorClass) (model_config : option Config)
  | Invoke (evaluator : Evaluator) (input : EvaluationInput)
  | Submit (evaluator : Evaluator) (input : EvaluationInput).

(** The attributes of a [QAEvaluator] object. An attribute is [None] until
    [__init__] has assigned it. *)
Record QAEvaluator : Type := mkQAEvaluator {
  _parallel : option bool;
  _evaluators : option (list Evaluator);
}.

Record State : Type := mkState {
  self : QAEvaluator;
  trace : list Event;
}.

(** ** The state and exception monad *)

Definition M (A : Type) : Type := State → State * (Exn + A).

Definition ret {A} (a : A) : M A := λ st, (st, inr a).

Definition bind {A B} (m : M A) (k : A → M B) : M B :=
  λ st, match m st with
        | (st', inr a) => k a st'
        | (st', inl e) => (st', inl e)
        end.

Notation "x <- m ;; k" := (bind m (λ x, k))
  (at level 20, m at level 99, k at level 200, only parsing).
Notation "m ;; k" := (bind m (λ _, k))
  (at level 100, k at level 200, right associativity, only parsing).

(** A call to the outside returns or raises. *)
Definition lift {A} (r : Exn + A) : M A := λ st, (st, r).

Definition emit (ev : Event) : M unit :=
  λ st, (mkState (self st) (trace st ++ [ev]), inr tt).

(** [self.attr = v] *)
Definition setattr (upd : QAEvaluator → QAEvaluator) : M unit :=
  λ st, (mkState (upd (self st)) (trace st), inr tt).

(** Reading an attribute that was never assigned raises [AttributeError]. *)
Variable AttributeError : Exn.

Definition getattr {A} (attr : QAEvaluator → option A) : M A :=
  λ st, match attr (self st) with
        | Some a => (st, inr a)
        | None => (st, inl AttributeError)
        end.

(** ** [dict.update] *)

(** [results.update(other)]: every key of [other] is set in [results] to the
    value [other] has for it; the other keys of [results] stay. stdpp's union
    of maps takes the left value on a common key. *)
Definition update (results other : gmap string Score) : gmap string Score :=
  other ∪ results.

(** ** [QAEvaluator.__init__] *)

(** The constructors of the six imported classes. *)
Variables GroundednessEvaluator RelevanceEvaluator CoherenceEvaluator
          FluencyEvaluator SimilarityEvaluator : Config → Exn + Evaluator.
Variable F1ScoreEvaluator : Exn + Evaluator.

Definition construct (cls : EvaluatorClass) (model_config : option Config)
    (outcome : Exn + Evaluator) : M Evaluator :=
  emit (Construct cls model_config) ;; lift outcome.

Definition set_parallel (parallel : bool) (o : QAEvaluator) : QAEvaluator :=
  mkQAEvaluator (Some parallel) (_evaluators o).

Definition set_evaluators (evaluators : list Evaluator) (o : QAEvaluator)
    : QAEvaluator :=
  mkQAEvaluator (_parallel o) (Some evaluators).

(** [def __init__(self, model_config, parallel: bool = True)]; a [parallel]
    of [None] is an omitted argument. *)
Definition __init__ (model_config : Config) (parallel : option bool) : M unit :=
  let parallel := default true parallel in
  setattr (set_parallel parallel) ;;
  groundedness <- construct Groundedness (Some model_config)
                    (GroundednessEvaluator model_config) ;;
  relevance <- construct Relevance (Some model_config)
                 (RelevanceEvaluator model_config) ;;
  coherence <- construct Coherence (Some model_config)
                 (CoherenceEvaluator model_config) ;;
  fluency <- construct Fluency (Some model_config)
               (FluencyEvaluator model_config) ;;
  similarity <- construct Similarity (Some model_config)
                  (SimilarityEvaluator model_config) ;;
  f1_score <- construct F1Score None F1ScoreEvaluator ;;
  setattr (set_evaluators
             [groundedness; relevance; coherence; fluency; similarity; f1_score]).

(** An object before [__init__] has run. *)
Definition blank : QAEvaluator := mkQAEvaluator None None.

(** The class call [QAEvaluator(model_config, parallel)]: [__init__] runs on
    a blank object, which is returned if [__init__] does. *)
Definition new (model_config : Config) (parallel : option bool)
    (tr : list Event) : list Event * (Exn + QAEvaluator) :=
  match __init__ model_config parallel (mkState blank tr) with
  | (st, inr _) => (trace st, inr (self st))
  | (st, inl e) => (trace st, inl e)
  end.

(** ** [QAEvaluator.__call__] *)

(** The sequential loop:
    [for evaluator in self._evaluators: results.update(evaluator(...))]. *)
Fixpoint for_each (evaluators : list Evaluator) (input : EvaluationInput)
    (results : gmap string Score) : M (gmap string Score) :=
  match evaluators with
  | [] => ret results
  | evaluator :: rest =>
      emit (Invoke evaluator input) ;;
      r <- lift (evaluator input) ;;
      for_each rest input (update results r)
  end.

(** A future holds the outcome of the call it was submitted with. *)
Definition Future : Type := Exn + gmap string Score.

(** The dictionary comprehension that submits one call per evaluator, in list
    order. (Its values, the evaluators, are never read.) *)
Fixpoint submit_all (evaluators : list Evaluator) (input : EvaluationInput)
    : M (list Future) :=
  match evaluators with
  | [] => ret []
  | evaluator :: rest =>
      emit (Submit evaluator input) ;;
      futures <- submit_all rest input ;;
      ret (evaluator input :: futures)
  end.

(** [as_completed(futures)] yields every future once, when it has finished.
    The order is not fixed by the code: the futures that have already
    finished when the iteration starts come first, in no specified order
    (the library keeps them in a set), the others as they finish.
    [completion] lists the positions of the futures in the order in which
    [as_completed] yields them. *)
Definition as_completed (completion : list nat) (futures : list Future)
    : list Future :=
  omap (λ i, futures !! i) completion.

(** [for future in as_completed(futures): results.update(future.result())];
    [future.result()] returns what the call returned or raises what it
    raised. *)
Fixpoint collect (completed : list Future) (results : gmap string Score)
    : M (gmap string Score) :=
  match completed with
  | [] => ret results
  | future :: rest =>
      r <- lift future ;;
      collect rest (update results r)
  end.

Definition __call__ (question answer context ground_truth : string)
    (kwargs : gmap string Value) (completion : list nat)
    : M (gmap string Score) :=
  let input := mkInput question answer context ground_truth kwargs in
  let results : gmap string Score := ∅ in
  parallel <- getattr _parallel ;;
  if parallel : bool then
    evaluators <- getattr _evaluators ;;
    futures <- submit_all evaluators input ;;
    collect (as_completed completion futures) results
  else
    evaluators <- getattr _evaluators ;;
    for_each evaluators input results.

(** ** Vocabulary of the properties *)

Implicit Types (st : State) (input : EvaluationInput).
Implicit Types (evaluators evs : list Evaluator).
Implicit Types (results res d : gmap string Score) (ds : list (gmap string Score)).
Implicit Types (k : string) (e : Exn).

(** [succeed input evs ds]: called on [input], the evaluators [evs] return
    the dictionaries [ds], position by position. *)
Definition succeed input evs ds : Prop :=
  Forall2 (λ (ev : Evaluator) d, ev input = inr d) evs ds.

(** The trace a run of the sequential loop over [evs] leaves. *)
Definition invocations input evs : list Event :=
  (λ ev, Invoke ev input) <$> evs.

(** The trace the submissions of [evs] leave. *)
Definition submissions input evs : list Event :=
  (λ ev, Submit ev input) <$> evs.

(** The constructor calls [__init__] makes, in the order of the list display
    it builds. *)
Definition constructions (model_config : Config) : list Event :=
  [ Construct Groundedness (Some model_config);
    Construct Relevance (Some model_config);
    Construct Coherence (Some model_config);
    Construct Fluency (Some model_config);
    Construct Similarity (Some model_config);
    Construct F1Score None ].

(** What the six constructor calls of [__init__] return or raise, in the
    order of the calls. *)
Definition constructor_outcomes (model_config : Config)
    : list (Exn + Evaluator) :=
  [ GroundednessEvaluator model_config; RelevanceEvaluator model_config;
    CoherenceEvaluator model_config; FluencyEvaluator model_config;
    SimilarityEvaluator model_config; F1ScoreEvaluator ].

(** A caller that uses one object several times: each call starts in the
    state the call before it left. *)
Record Call : Type := mkCall {
  call_input : EvaluationInput;
  call_completion : list nat;
}.

Definition call (cl : Call) : M (gmap string Score) :=
  let input := call_input cl in
  __call__ (question input) (answer input) (context input)
    (ground_truth input) (kwargs input) (call_completion cl).

Definition run_calls (calls : list Call) (st : State) : State :=
  foldl (λ st cl, (call cl st).1) st calls.

(** * Properties *)

(** ** Merging dictionaries *)

Lemma update_lookup results d k :
  update results d !! k =
    match d !! k with Some v => Some v | None => results !! k end.
Proof.
  unfold update. rewrite lookup_union.
  destruct (d !! k), (results !! k); reflexivity.
Qed.

Lemma update_dom results d : dom (update results d) = dom results ∪ dom d.
Proof. unfold update. rewrite dom_union_L. apply union_comm_L. Qed.

Lemma merge_dom ds results :
  dom (foldl update results ds) = dom results ∪ ⋃ (dom <$> ds).
Proof.
  revert results. induction ds as [|d ds IH]; intros results; simpl.
  - by rewrite union_empty_r_L.
  - by rewrite IH, update_dom, union_assoc_L.
Qed.

Lemma merge_lookup_None ds results k :
  (∀ d, d ∈ ds → d !! k = None) →
  foldl update results ds !! k = results !! k.
Proof.
  revert results. induction ds as [|d ds IH]; intros results Hnone; simpl.
  - reflexivity.
  - rewrite IH by (intros d' Hd'; apply Hnone; by right).
    rewrite update_lookup, (Hnone d) by left. reflexivity.
Qed.

(** The last dictionary that has the key decides its value. *)
Lemma merge_lookup_last ds results k i d :
  ds !! i = Some d →
  is_Some (d !! k) →
  (∀ j d', i < j → ds !! j = Some d' → d' !! k = None) →
  foldl update results ds !! k = d !! k.
Proof.
  revert results i. induction ds as [|d0 ds IH]; intros results i Hi Hk Hlast.
  - discriminate.
  - destruct i as [|i]; simpl in *.
    + injection Hi as ->.
      rewrite merge_lookup_None.
      * rewrite update_lookup. destruct Hk as [v ->]. reflexivity.
      * intros d' [j Hj]%list_elem_of_lookup. apply (Hlast (S j)); [lia | exact Hj].
    + apply (IH _ i); [exact Hi | exact Hk |].
      intros j d' Hij Hj. apply (Hlast (S j)); [lia | exact Hj].
Qed.

(** Every value of the merge was put there by one of the dictionaries. *)
Lemma merge_lookup_Some ds results k v :
  foldl update results ds !! k = Some v →
  results !! k = Some v ∨ ∃ d, d ∈ ds ∧ d !! k = Some v.
Proof.
  revert results. induction ds as [|d ds IH]; intros results; simpl.
  - auto.
  - intros [H | (d' & Hd' & Hv)]%IH.
    + rewrite update_lookup in H. destruct (d !! k) eqn:E.
      * right. exists d. split; [left | congruence].
      * by left.
    + right. exists d'. split; [by right | done].
Qed.

(** The keys of the merge depend only on which dictionaries are merged. *)
Lemma merge_dom_same_elements ds ds' results :
  (∀ d, d ∈ ds' ↔ d ∈ ds) →
  dom (foldl update results ds') = dom (foldl update results ds).
Proof.
  intros Hmem. rewrite !merge_dom. f_equal.
  apply set_eq. intros k. rewrite !elem_of_union_list.
  split; intros (X & HX & Hk); exists X; (split; [|done]);
    apply list_elem_of_fmap in HX as (d & -> & Hd);
    apply list_elem_of_fmap_2; by apply Hmem.
Qed.

(** ** The sequential loop *)

Lemma for_each_succeed evs ds input results st :
  succeed input evs ds →
  for_each evs input results st =
    (mkState (self st) (trace st ++ invocations input evs),
     inr (foldl update results ds)).
Proof.
  intros H. revert results st.
  induction H as [|ev d evs ds Hev _ IH]; intros results st.
  - simpl. unfold ret, invocations. simpl. rewrite app_nil_r. by destruct st.
  - simpl. unfold bind at 1 2, emit, lift. simpl. rewrite Hev, IH. simpl.
    unfold invocations. by rewrite <- app_assoc.
Qed.

Lemma for_each_raise pre ev post ds e input results st :
  succeed input pre ds →
  ev input = inl e →
  for_each (pre ++ ev :: post) input results st =
    (mkState (self st) (trace st ++ invocations input (pre ++ [ev])), inl e).
Proof.
  intros H He. revert results st.
  induction H as [|ev0 d evs ds' Hev _ IH]; intros results st.
  - simpl. unfold bind, emit, lift. simpl. by rewrite He.
  - simpl. unfold bind at 1 2, emit, lift. simpl. rewrite Hev, IH. simpl.
    unfold invocations. simpl. by rewrite <- app_assoc.
Qed.

(** A list of evaluators either succeeds as a whole or has a first
    evaluator that raises. *)
Lemma first_failure input evs :
  (∃ ds, succeed input evs ds) ∨
  (∃ pre ev post ds e,
     evs = pre ++ ev :: post ∧ succeed input pre ds ∧ ev input = inl e).
Proof.
  induction evs as [|ev evs IH].
  - left. exists []. constructor.
  - destruct (ev input) as [e|d] eqn:Hev.
    + right. exists [], ev, evs, [], e. repeat split; [constructor | done].
    + destruct IH as [[ds H] | (pre & ev' & post & ds & e & -> & H & He)].
      * left. exists (d :: ds). by constructor.
      * right. exists (ev :: pre), ev', post, (d :: ds), e.
        repeat split; [by constructor | done].
Qed.

Lemma for_each_self evs input results st :
  self (for_each evs input results st).1 = self st.
Proof.
  destruct (first_failure input evs)
    as [[ds H] | (pre & ev & post & ds & e & -> & H & He)].
  - by rewrite (for_each_succeed _ ds).
  - by rewrite (for_each_raise _ _ _ ds e).
Qed.

(** ** The thread pool *)

Lemma submit_all_spec evs input st :
  submit_all evs input st =
    (mkState (self st) (trace st ++ submissions input evs),
     inr ((λ ev : Evaluator, ev input) <$> evs)).
Proof.
  revert st. induction evs as [|ev evs IH]; intros st; simpl.
  - unfold ret, submissions. simpl. rewrite app_nil_r. by destruct st.
  - unfold bind at 1 2, emit. simpl. rewrite IH. simpl.
    unfold ret, submissions. simpl. by rewrite <- app_assoc.
Qed.

Lemma collect_succeed ds results st :
  collect (inr <$> ds) results st = (st, inr (foldl update results ds)).
Proof.
  revert results. induction ds as [|d ds IH]; intros results; simpl.
  - reflexivity.
  - unfold bind, lift. apply IH.
Qed.

Lemma collect_raise ds e (post : list Future) results st :
  collect ((inr <$> ds) ++ inl e :: post) results st = (st, inl e).
Proof.
  revert results. induction ds as [|d ds IH]; intros results; simpl.
  - reflexivity.
  - unfold bind, lift. apply IH.
Qed.

(** A list of futures either holds results only or has a first future that
    holds an exception. *)
Lemma first_raised (futures : list Future) :
  (∃ ds, futures = inr <$> ds) ∨
  (∃ ds e post, futures = (inr <$> ds) ++ inl e :: post).
Proof.
  induction futures as [|[e|d] futures IH].
  - left. by exists [].
  - right. by exists [], e, futures.
  - destruct IH as [[ds ->] | (ds & e & post & ->)].
    + left. by exists (d :: ds).
    + right. by exists (d :: ds), e, post.
Qed.

Lemma collect_state (futures : list Future) results st :
  (collect futures results st).1 = st.
Proof.
  destruct (first_raised futures) as [[ds ->] | (ds & e & post & ->)].
  - by rewrite collect_succeed.
  - by rewrite collect_raise.
Qed.

Lemma lookup_positions {A} (pre l : list A) :
  omap (λ i, (pre ++ l) !! i) (seq (length pre) (length l)) = l.
Proof.
  revert pre. induction l as [|x l IH]; intros pre; simpl.
  - reflexivity.
  - rewrite list_lookup_middle by reflexivity. f_equal.
    specialize (IH (pre ++ [x])).
    rewrite <- app_assoc, length_app in IH. simpl in IH.
    by rewrite Nat.add_1_r in IH.
Qed.

(** When [completion] names every position once, [as_completed] yields
    every future once. *)
Lemma as_completed_Permutation completion (futures : list Future) :
  completion ≡ₚ seq 0 (length futures) →
  as_completed completion futures ≡ₚ futures.
Proof.
  intros Hp. unfold as_completed. rewrite Hp.
  pose proof (lookup_positions [] futures) as Hall. simpl in Hall.
  by rewrite Hall.
Qed.

(** ** The two branches of [__call__] *)

Lemma call_sequential q a c g kw completion st evs :
  _parallel (self st) = Some false →
  _evaluators (self st) = Some evs →
  __call__ q a c g kw completion st = for_each evs (mkInput q a c g kw) ∅ st.
Proof.
  intros Hp Hevs. unfold __call__, bind, getattr. by rewrite Hp, Hevs.
Qed.

Lemma call_parallel q a c g kw completion st evs :
  let input := mkInput q a c g kw in
  _parallel (self st) = Some true →
  _evaluators (self st) = Some evs →
  __call__ q a c g kw completion st =
    collect (as_completed completion ((λ ev : Evaluator, ev input) <$> evs)) ∅
      (mkState (self st) (trace st ++ submissions input evs)).
Proof.
  intros input Hp Hevs. unfold __call__, bind, getattr.
  by rewrite Hp, Hevs, submit_all_spec.
Qed.

(** Without its attributes the object cannot be called. *)
Lemma call_no_parallel q a c g kw completion st :
  _parallel (self st) = None →
  __call__ q a c g kw completion st = (st, inl AttributeError).
Proof. intros Hp. unfold __call__, bind, getattr. by rewrite Hp. Qed.

Lemma call_no_evaluators q a c g kw completion st (parallel : bool) :
  _parallel (self st) = Some parallel →
  _evaluators (self st) = None →
  __call__ q a c g kw completion st = (st, inl AttributeError).
Proof.
  intros Hp Hevs. unfold __call__, bind, getattr. rewrite Hp.
  destruct parallel; by rewrite Hevs.
Qed.

(** [__call__] never assigns to [self]. *)
Lemma call_self q a c g kw completion st :
  self (__call__ q a c g kw completion st).1 = self st.
Proof.
  destruct (_parallel (self st)) as [parallel|] eqn:Hp;
    [destruct (_evaluators (self st)) as [evs|] eqn:Hevs |].
  - destruct parallel.
    + by rewrite (call_parallel _ _ _ _ _ _ _ evs), collect_state.
    + by rewrite (call_sequential _ _ _ _ _ _ _ evs), for_each_self.
  - by rewrite (call_no_evaluators _ _ _ _ _ _ _ parallel).
  - by rewrite call_no_parallel.
Qed.

Lemma succeed_fmap input evs ds :
  succeed input evs ds → (λ ev : Evaluator, ev input) <$> evs = inr <$> ds.
Proof. induction 1 as [|ev d evs ds Hev _ IH]; csimpl; [done | by f_equal]. Qed.

Lemma succeed_length input evs ds : succeed input evs ds → length evs = length ds.
Proof. apply Forall2_length. Qed.

(** ** Results of a call *)

(** C1. In sequential mode, when every collaborator succeeds, the call
    returns a dictionary whose keys are the union of the keys of the
    collaborators' dictionaries, and a key has the value given by the last
    collaborator, in list order, that emits it. *)
Theorem sequential_merge_last_wins q a c g kw completion st evs ds :
  _parallel (self st) = Some false →
  _evaluators (self st) = Some evs →
  succeed (mkInput q a c g kw) evs ds →
  ∃ res,
    (__call__ q a c g kw completion st).2 = inr res ∧
    dom res = ⋃ (dom <$> ds) ∧
    ∀ k i d,
      ds !! i = Some d →
      is_Some (d !! k) →
      (∀ j d', i < j → ds !! j = Some d' → d' !! k = None) →
      res !! k = d !! k.
Proof.
  intros Hp Hevs Hok.
  rewrite (call_sequential _ _ _ _ _ _ _ evs), (for_each_succeed _ ds) by done.
  exists (foldl update ∅ ds). split; [done | split].
  - by rewrite merge_dom, dom_empty_L, union_empty_l_L.
  - intros k i d. apply merge_lookup_last.
Qed.

(** C2. When every collaborator succeeds, the concurrent call, whatever the
    order in which the futures complete, returns a dictionary with the same
    keys as the sequential call; a key that only one collaborator emits has
    the same value in both. *)
Theorem concurrent_keys_as_sequential q a c g kw completion completion'
    st_seq st_par evs ds :
  _parallel (self st_seq) = Some false →
  _evaluators (self st_seq) = Some evs →
  _parallel (self st_par) = Some true →
  _evaluators (self st_par) = Some evs →
  succeed (mkInput q a c g kw) evs ds →
  completion ≡ₚ seq 0 (length evs) →
  ∃ res_seq res_par,
    (__call__ q a c g kw completion' st_seq).2 = inr res_seq ∧
    (__call__ q a c g kw completion st_par).2 = inr res_par ∧
    dom res_par = dom res_seq ∧
    ∀ k,
      (∀ i j di dj,
         ds !! i = Some di → ds !! j = Some dj →
         is_Some (di !! k) → is_Some (dj !! k) → i = j) →
      res_par !! k = res_seq !! k.
Proof.
  intros Hs Hevs Hp Hevp Hok Hperm.
  rewrite (call_sequential _ _ _ _ _ _ _ evs), (for_each_succeed _ ds) by done.
  rewrite (call_parallel _ _ _ _ _ _ _ evs) by done.
  rewrite (succeed_fmap _ _ ds) by done.
  assert (as_completed completion (inr <$> ds) ≡ₚ inr <$> ds) as Hdone.
  { apply as_completed_Permutation.
    by rewrite length_fmap, <- (succeed_length _ _ _ Hok). }
  destruct (first_raised (as_completed completion (inr <$> ds)))
    as [[ds' Hds'] | (ds' & e & post & Hds')]; rewrite Hds' in *.
  - assert (∀ d, d ∈ ds' ↔ d ∈ ds) as Hmem.
    { intros d. split; intros Hd.
      - apply (list_elem_of_fmap_inj_2 (@inr Exn _)). rewrite <- Hdone.
        by apply list_elem_of_fmap_2.
      - apply (list_elem_of_fmap_inj_2 (@inr Exn _)). rewrite Hdone.
        by apply list_elem_of_fmap_2. }
    rewrite collect_succeed. simpl.
    pose proof (merge_dom_same_elements ds ds' ∅ Hmem) as Hdom.
    exists (foldl update ∅ ds), (foldl update ∅ ds').
    split; [done | split; [done | split; [done |]]].
    intros k Huniq.
    destruct (foldl update ∅ ds !! k) as [v|] eqn:Hseq.
    + assert (is_Some (foldl update ∅ ds' !! k)) as [v' Hpar].
      { apply elem_of_dom. rewrite Hdom. apply elem_of_dom. eauto. }
      rewrite Hpar. f_equal.
      apply merge_lookup_Some in Hseq as [Hseq | (d & Hd & Hv)];
        [by rewrite lookup_empty in Hseq |].
      apply merge_lookup_Some in Hpar as [Hpar | (d' & Hd' & Hv')];
        [by rewrite lookup_empty in Hpar |].
      apply Hmem in Hd'.
      apply list_elem_of_lookup in Hd as [i Hi].
      apply list_elem_of_lookup in Hd' as [j Hj].
      assert (j = i) as -> by (apply (Huniq j i d' d); eauto).
      congruence.
    + apply not_elem_of_dom. rewrite Hdom. by apply not_elem_of_dom.
  - exfalso.
    assert (inl e ∈ inr <$> ds) as Hin.
    { rewrite <- Hdone. apply elem_of_app. right. left. }
    apply list_elem_of_fmap in Hin as (d & Hd & _). discriminate.
Qed.

(** C3. When a collaborator raises, the call raises in both modes: its
    outcome is the exception of a collaborator that raises, and no
    dictionary. When only one collaborator raises, it is that one's
    exception. *)
Theorem collaborator_failure_propagates q a c g kw completion st
    (parallel : bool) evs i ev e :
  let input := mkInput q a c g kw in
  _parallel (self st) = Some parallel →
  _evaluators (self st) = Some evs →
  (parallel = true → completion ≡ₚ seq 0 (length evs)) →
  evs !! i = Some ev →
  ev input = inl e →
  ∃ j ev' e',
    evs !! j = Some ev' ∧ ev' input = inl e' ∧
    (__call__ q a c g kw completion st).2 = inl e' ∧
    ((∀ j' ev'' e'',
        evs !! j' = Some ev'' → ev'' input = inl e'' → j' = i) →
     e' = e).
Proof.
  intros input Hp Hevs Hperm Hi He.
  assert (∀ j ev' e', evs !! j = Some ev' → ev' input = inl e' →
            (∀ j' ev'' e'',
               evs !! j' = Some ev'' → ev'' input = inl e'' → j' = i) →
            e' = e) as Honly.
  { intros j ev' e' Hj He' Huniq.
    assert (j = i) as -> by eauto. congruence. }
  destruct parallel.
  - rewrite (call_parallel _ _ _ _ _ _ _ evs) by done. fold input.
    set (futures := (λ ev : Evaluator, ev input) <$> evs).
    assert (as_completed completion futures ≡ₚ futures) as Hdone.
    { apply as_completed_Permutation. unfold futures.
      rewrite length_fmap. by apply Hperm. }
    assert (inl e ∈ futures) as Hin.
    { unfold futures. rewrite <- He.
      apply (list_elem_of_fmap_2 (λ ev : Evaluator, ev input)).
      apply list_elem_of_lookup. eauto. }
    destruct (first_raised (as_completed completion futures))
      as [[ds Hds] | (ds & e' & post & Hds)]; rewrite Hds in *.
    + exfalso. rewrite <- Hdone in Hin.
      apply list_elem_of_fmap in Hin as (d & Hd & _). discriminate.
    + assert (inl e' ∈ futures) as Hin'.
      { rewrite <- Hdone. apply elem_of_app. right. left. }
      apply list_elem_of_fmap in Hin' as (ev' & He' & [j Hj]%list_elem_of_lookup).
      exists j, ev', e'. rewrite collect_raise. eauto.
  - rewrite (call_sequential _ _ _ _ _ _ _ evs) by done. fold input.
    destruct (first_failure input evs)
      as [[ds Hok] | (pre & ev' & post & ds & e' & -> & Hok & He')].
    + exfalso.
      destruct (Forall2_lookup_l _ _ _ _ _ Hok Hi) as (d & _ & Hd). congruence.
    + exists (length pre), ev', e'.
      rewrite (for_each_raise _ _ _ ds e') by done.
      assert ((pre ++ ev' :: post) !! length pre = Some ev') as Hj
        by by apply list_lookup_middle.
      eauto.
Qed.

(** C4. In sequential mode, when the collaborator at position [i] raises,
    the loop stops at the first position [n] that raises, which is at most
    [i]: the collaborators called are exactly those at positions [0..n], so
    none after [i] is called, and the call ends with the exception, not with
    the results merged so far. *)
Theorem sequential_stops_at_first_failure q a c g kw completion st evs i ev e :
  let input := mkInput q a c g kw in
  _parallel (self st) = Some false →
  _evaluators (self st) = Some evs →
  evs !! i = Some ev →
  ev input = inl e →
  ∃ n ev_n e_n,
    n ≤ i ∧ evs !! n = Some ev_n ∧ ev_n input = inl e_n ∧
    (∀ m ev_m, m < n → evs !! m = Some ev_m → ∃ d, ev_m input = inr d) ∧
    __call__ q a c g kw completion st =
      (mkState (self st) (trace st ++ invocations input (take (S n) evs)),
       inl e_n).
Proof.
  intros input Hp Hevs Hi He.
  rewrite (call_sequential _ _ _ _ _ _ _ evs) by done. fold input.
  destruct (first_failure input evs)
    as [[ds Hok] | (pre & ev' & post & ds & e' & -> & Hok & He')].
  - exfalso.
    destruct (Forall2_lookup_l _ _ _ _ _ Hok Hi) as (d & _ & Hd). congruence.
  - assert (∀ m ev_m, m < length pre → (pre ++ ev' :: post) !! m = Some ev_m →
              ∃ d, ev_m input = inr d) as Hbefore.
    { intros m ev_m Hm Hlook. rewrite lookup_app_l in Hlook by done.
      destruct (Forall2_lookup_l _ _ _ _ _ Hok Hlook) as (d & _ & Hd). eauto. }
    exists (length pre), ev', e'. repeat split.
    + destruct (decide (i < length pre)) as [Hlt|]; [|lia].
      destruct (Hbefore i ev Hlt Hi) as [d Hd]. congruence.
    + by apply list_lookup_middle.
    + done.
    + done.
    + rewrite (for_each_raise _ _ _ ds e') by done.
      rewrite (take_S_r _ _ ev') by by apply list_lookup_middle.
      by rewrite take_app_length.
Qed.


(** ** Construction *)

Lemma new_succeeds cfg parallel tr gr re co fl si f1 :
  GroundednessEvaluator cfg = inr gr →
  RelevanceEvaluator cfg = inr re →
  CoherenceEvaluator cfg = inr co →
  FluencyEvaluator cfg = inr fl →
  SimilarityEvaluator cfg = inr si →
  F1ScoreEvaluator = inr f1 →
  new cfg parallel tr =
    (tr ++ constructions cfg,
     inr (mkQAEvaluator (Some (default true parallel))
            (Some [gr; re; co; fl; si; f1]))).
Proof.
  intros Hgr Hre Hco Hfl Hsi Hf1.
  unfold new, __init__, construct, bind, emit, lift, setattr. simpl.
  rewrite Hgr, Hre, Hco, Hfl, Hsi, Hf1. simpl.
  by rewrite <- !app_assoc.
Qed.

Lemma run_calls_self calls st : self (run_calls calls st) = self st.
Proof.
  revert st. induction calls as [|cl calls IH]; intros st; simpl.
  - reflexivity.
  - rewrite IH. apply call_self.
Qed.

(** What a call returns or raises depends on the attributes of [self] and on
    the arguments, not on what was called before. *)
Lemma for_each_result evs input results st st' :
  (for_each evs input results st).2 = (for_each evs input results st').2.
Proof.
  destruct (first_failure input evs)
    as [[ds H] | (pre & ev & post & ds & e & -> & H & He)].
  - by rewrite !(for_each_succeed _ ds).
  - by rewrite !(for_each_raise _ _ _ ds e).
Qed.

Lemma collect_result (futures : list Future) results st st' :
  (collect futures results st).2 = (collect futures results st').2.
Proof.
  destruct (first_raised futures) as [[ds ->] | (ds & e & post & ->)].
  - by rewrite !collect_succeed.
  - by rewrite !collect_raise.
Qed.

Lemma call_result q a c g kw completion st st' :
  self st' = self st →
  (__call__ q a c g kw completion st').2 = (__call__ q a c g kw completion st).2.
Proof.
  intros Hself.
  destruct (_parallel (self st)) as [parallel|] eqn:Hp;
    [destruct (_evaluators (self st)) as [evs|] eqn:Hevs |].
  - destruct parallel.
    + rewrite !(call_parallel _ _ _ _ _ _ _ evs) by congruence.
      apply collect_result.
    + rewrite !(call_sequential _ _ _ _ _ _ _ evs) by congruence.
      apply for_each_result.
  - by rewrite !(call_no_evaluators _ _ _ _ _ _ _ parallel) by congruence.
  - by rewrite !call_no_parallel by congruence.
Qed.

Lemma call_sequential_result q a c g kw completion completion' st st' :
  _parallel (self st) = Some false →
  self st' = self st →
  (__call__ q a c g kw completion' st').2 = (__call__ q a c g kw completion st).2.
Proof.
  intros Hp Hself.
  destruct (_evaluators (self st)) as [evs|] eqn:Hevs.
  - rewrite !(call_sequential _ _ _ _ _ _ _ evs) by congruence.
    apply for_each_result.
  - by rewrite !(call_no_evaluators _ _ _ _ _ _ _ false) by congruence.
Qed.

(** C6. An object constructed without the [parallel] argument is in
    concurrent mode, and stays so: the flag is [True] after construction and
    after any number of calls on the object. *)
Theorem parallel_defaults_to_true cfg tr tr' obj :
  new cfg None tr = (tr', inr obj) →
  _parallel obj = Some true ∧
  (∀ q a c g kw completion tr0,
     _parallel (self (__call__ q a c g kw completion (mkState obj tr0)).1) =
       Some true) ∧
  (∀ calls tr0, _parallel (self (run_calls calls (mkState obj tr0))) = Some true).
Proof.
  intros Hnew.
  assert (_parallel obj = Some true) as Hflag.
  { revert Hnew.
    unfold new, __init__, construct, bind, emit, lift, setattr. simpl.
    destruct (GroundednessEvaluator cfg); simpl; [congruence |].
    destruct (RelevanceEvaluator cfg); simpl; [congruence |].
    destruct (CoherenceEvaluator cfg); simpl; [congruence |].
    destruct (FluencyEvaluator cfg); simpl; [congruence |].
    destruct (SimilarityEvaluator cfg); simpl; [congruence |].
    destruct F1ScoreEvaluator; simpl; [congruence |].
    intros [= _ <-]. reflexivity. }
  split; [done | split].
  - intros. by rewrite call_self.
  - intros. by rewrite run_calls_self.
Qed.

(** C7. The constructor calls the six collaborator constructors, the first
    five with the model configuration it was given and [F1ScoreEvaluator]
    with none, and does nothing else to the outside. When it returns, the
    object holds the six instances; when it raises, the exception is the one
    a collaborator constructor raised, and the constructors after that one
    were not called. *)
Theorem constructor_builds_six_collaborators cfg parallel tr :
  match new cfg parallel tr with
  | (tr', inr obj) =>
      ∃ gr re co fl si f1,
        GroundednessEvaluator cfg = inr gr ∧
        RelevanceEvaluator cfg = inr re ∧
        CoherenceEvaluator cfg = inr co ∧
        FluencyEvaluator cfg = inr fl ∧
        SimilarityEvaluator cfg = inr si ∧
        F1ScoreEvaluator = inr f1 ∧
        _evaluators obj = Some [gr; re; co; fl; si; f1] ∧
        tr' = tr ++ constructions cfg
  | (tr', inl e) =>
      (GroundednessEvaluator cfg = inl e ∨
       RelevanceEvaluator cfg = inl e ∨
       CoherenceEvaluator cfg = inl e ∨
       FluencyEvaluator cfg = inl e ∨
       SimilarityEvaluator cfg = inl e ∨
       F1ScoreEvaluator = inl e) ∧
      ∃ n, n < 6 ∧ tr' = tr ++ take (S n) (constructions cfg)
  end.
Proof.
  unfold new, __init__, construct, bind, emit, lift, setattr. simpl.
  destruct (GroundednessEvaluator cfg) as [e|gr]; simpl.
  { split; [auto | exists 0; split; [lia | done]]. }
  destruct (RelevanceEvaluator cfg) as [e|re]; simpl.
  { split; [auto | exists 1; split; [lia | by rewrite <- !app_assoc]]. }
  destruct (CoherenceEvaluator cfg) as [e|co]; simpl.
  { split; [auto | exists 2; split; [lia | by rewrite <- !app_assoc]]. }
  destruct (FluencyEvaluator cfg) as [e|fl]; simpl.
  { split; [auto | exists 3; split; [lia | by rewrite <- !app_assoc]]. }
  destruct (SimilarityEvaluator cfg) as [e|si]; simpl.
  { split; [auto 6 | exists 4; split; [lia | by rewrite <- !app_assoc]]. }
  destruct F1ScoreEvaluator as [e|f1]; simpl.
  { split; [auto 7 | exists 5; split; [lia | by rewrite <- !app_assoc]]. }
  exists gr, re, co, fl, si, f1.
  repeat split. by rewrite <- !app_assoc.
Qed.

(** C8. A call leaves the object as it was, whether it returns or raises:
    the collaborator list and the flag are the same after the call and after
    any number of calls, and the outcome of a call is the same whatever was
    called on the object before. *)
Theorem call_leaves_instance_unchanged q a c g kw completion st :
  let st' := (__call__ q a c g kw completion st).1 in
  self st' = self st ∧
  _parallel (self st') = _parallel (self st) ∧
  _evaluators (self st') = _evaluators (self st) ∧
  (∀ calls, self (run_calls calls st) = self st) ∧
  (∀ calls,
     (__call__ q a c g kw completion (run_calls calls st)).2 =
       (__call__ q a c g kw completion st).2).
Proof.
  simpl. rewrite call_self.
  split; [done | split; [done | split; [done | split]]].
  - intros calls. apply run_calls_self.
  - intros calls. apply call_result, run_calls_self.
Qed.

(** C9. The collaborator list is built in the order Groundedness,
    Relevance, Coherence, Fluency, Similarity, F1Score, and no call changes
    it. So in sequential mode, when all succeed, a key has the value of
    F1Score if F1Score emits it, and otherwise the value of the last of
    Similarity, Fluency, Coherence, Relevance, Groundedness that emits it. *)
Theorem evaluators_in_fixed_order cfg parallel tr gr re co fl si f1 :
  GroundednessEvaluator cfg = inr gr →
  RelevanceEvaluator cfg = inr re →
  CoherenceEvaluator cfg = inr co →
  FluencyEvaluator cfg = inr fl →
  SimilarityEvaluator cfg = inr si →
  F1ScoreEvaluator = inr f1 →
  (∃ tr' obj,
     new cfg parallel tr = (tr', inr obj) ∧
     _evaluators obj = Some [gr; re; co; fl; si; f1]) ∧
  (∀ q a c g kw completion st,
     _evaluators (self (__call__ q a c g kw completion st).1) =
       _evaluators (self st)) ∧
  (∀ calls st, _evaluators (self (run_calls calls st)) = _evaluators (self st)) ∧
  ∀ tr' obj q a c g kw completion tr0 d_gr d_re d_co d_fl d_si d_f1,
    new cfg (Some false) tr = (tr', inr obj) →
    succeed (mkInput q a c g kw) [gr; re; co; fl; si; f1]
      [d_gr; d_re; d_co; d_fl; d_si; d_f1] →
    ∃ res,
      (__call__ q a c g kw completion (mkState obj tr0)).2 = inr res ∧
      ∀ k,
        res !! k =
          match d_f1 !! k with Some v => Some v | None =>
          match d_si !! k with Some v => Some v | None =>
          match d_fl !! k with Some v => Some v | None =>
          match d_co !! k with Some v => Some v | None =>
          match d_re !! k with Some v => Some v | None =>
          d_gr !! k end end end end end.
Proof.
  intros Hgr Hre Hco Hfl Hsi Hf1. split; [|split; [|split]].
  - eexists _, _. split; [by apply new_succeeds | done].
  - intros. by rewrite call_self.
  - intros. by rewrite run_calls_self.
  - intros tr' obj q a c g kw completion tr0 d_gr d_re d_co d_fl d_si d_f1.
    rewrite (new_succeeds _ _ _ gr re co fl si f1) by done.
    intros [= _ <-] Hok.
    eexists. split.
    + rewrite (call_sequential _ _ _ _ _ _ _ [gr; re; co; fl; si; f1]) by done.
      by rewrite (for_each_succeed _ _ _ _ _ Hok).
    + intros k. simpl. rewrite !update_lookup, lookup_empty.
      by destruct (d_f1 !! k), (d_si !! k), (d_fl !! k), (d_co !! k),
        (d_re !! k), (d_gr !! k).
Qed.

(** C10. In sequential mode a call is deterministic: with equal arguments,
    two calls on objects with the same attributes have the same outcome, and
    so have two calls made one after the other on the same object, whatever
    completion order the pool would have chosen. *)
Theorem sequential_call_deterministic q a c g kw completion completion' st :
  _parallel (self st) = Some false →
  let first := __call__ q a c g kw completion st in
  (∀ st', self st' = self st →
     (__call__ q a c g kw completion' st').2 = first.2) ∧
  (__call__ q a c g kw completion' first.1).2 = first.2 ∧
  ∀ calls,
    (__call__ q a c g kw completion' (run_calls calls first.1)).2 = first.2.
Proof.
  intros Hp first. split; [|split].
  - intros st' Hself. by apply call_sequential_result.
  - apply call_sequential_result; [done | apply call_self].
  - intros calls. apply call_sequential_result; [done |].
    rewrite run_calls_self. apply call_self.
Qed.

(** * Further properties of [__call__] and [__init__] *)

(** ** The order in which futures are yielded *)

(** Position by position, [as_completed] yields the future that
    [completion] names. *)
Lemma as_completed_lookup completion (futures : list Future) p :
  (∀ i, i ∈ completion → i < length futures) →
  as_completed completion futures !! p =
    completion !! p ≫= λ i, futures !! i.
Proof.
  unfold as_completed. revert p.
  induction completion as [|i completion IH]; intros p Hrange.
  - by rewrite !lookup_nil.
  - destruct (lookup_lt_is_Some_2 futures i) as [future Hfuture].
    { apply Hrange. left. }
    simpl. rewrite Hfuture. destruct p as [|p]; simpl.
    + by rewrite Hfuture.
    + apply IH. intros j Hj. apply Hrange. by right.
Qed.

(** [as_completed] yields nothing but the futures it was given. *)
Lemma as_completed_elem_of completion (futures : list Future) future :
  future ∈ as_completed completion futures → future ∈ futures.
Proof.
  unfold as_completed. intros (i & _ & Hi)%list_elem_of_omap.
  by apply list_elem_of_lookup_2 in Hi.
Qed.

Lemma as_completed_submission_order (futures : list Future) :
  as_completed (seq 0 (length futures)) futures = futures.
Proof. exact (lookup_positions [] futures). Qed.

Lemma Permutation_in_range completion n i :
  completion ≡ₚ seq 0 n → i ∈ completion → i < n.
Proof. intros Hperm Hi. rewrite Hperm in Hi. apply elem_of_seq in Hi. lia. Qed.

(** When all collaborators succeed, the futures hold their dictionaries, and
    [as_completed] yields these in the order of [completion]. *)
Lemma as_completed_succeed completion input evs ds :
  succeed input evs ds →
  completion ≡ₚ seq 0 (length evs) →
  ∃ ds',
    as_completed completion ((λ ev : Evaluator, ev input) <$> evs) =
      inr <$> ds' ∧
    (∀ d, d ∈ ds' ↔ d ∈ ds) ∧
    (∀ p d, ds' !! p = Some d ↔ ∃ i, completion !! p = Some i ∧ ds !! i = Some d).
Proof.
  intros Hok Hperm. rewrite (succeed_fmap _ _ ds) by done.
  assert (as_completed completion (inr <$> ds) ≡ₚ inr <$> ds) as Hdone.
  { apply as_completed_Permutation.
    by rewrite length_fmap, <- (succeed_length _ _ _ Hok). }
  assert (∀ p, as_completed completion (inr <$> ds) !! p =
               completion !! p ≫= λ i, (inr (A:=Exn) <$> ds) !! i) as Hlook.
  { intros p. apply as_completed_lookup. intros i Hi.
    rewrite length_fmap, <- (succeed_length _ _ _ Hok).
    by apply (Permutation_in_range completion). }
  destruct (first_raised (as_completed completion (inr <$> ds)))
    as [[ds' Hds'] | (ds' & e & post & Hds')]; rewrite Hds' in *.
  - exists ds'. split; [done | split].
    + intros d. split; intros Hd.
      * apply (list_elem_of_fmap_inj_2 (@inr Exn _)). rewrite <- Hdone.
        by apply list_elem_of_fmap_2.
      * apply (list_elem_of_fmap_inj_2 (@inr Exn _)). rewrite Hdone.
        by apply list_elem_of_fmap_2.
    + intros p d. specialize (Hlook p).
      rewrite list_lookup_fmap in Hlook. split.
      * intros Hp. rewrite Hp in Hlook. simpl in Hlook.
        destruct (completion !! p) as [i|]; [|done]. simpl in Hlook.
        rewrite list_lookup_fmap in Hlook.
        destruct (ds !! i) as [d'|] eqn:Hd; [|done].
        exists i. split; [done |]. by simplify_eq/=.
      * intros (i & Hi & Hd). rewrite Hi in Hlook. simpl in Hlook.
        rewrite list_lookup_fmap, Hd in Hlook. simpl in Hlook.
        destruct (ds' !! p) as [d'|]; by simplify_eq/=.
  - exfalso.
    assert (inl e ∈ inr <$> ds) as Hin.
    { rewrite <- Hdone. apply elem_of_app. right. left. }
    apply list_elem_of_fmap in Hin as (d & Hd & _). discriminate.
Qed.

(** Draining futures that include an exception raises. *)
Lemma collect_elem_of_raise (futures : list Future) e results st :
  inl e ∈ futures → ∃ e', collect futures results st = (st, inl e').
Proof.
  intros Hin.
  destruct (first_raised futures) as [[ds ->] | (ds & e' & post & ->)].
  - apply list_elem_of_fmap in Hin as (d & Hd & _). discriminate.
  - exists e'. apply collect_raise.
Qed.

(** Draining the futures in the order of submission gives what the
    sequential loop gives. *)
Lemma collect_for_each_result evs input results st st' :
  (collect ((λ ev : Evaluator, ev input) <$> evs) results st).2 =
    (for_each evs input results st').2.
Proof.
  revert results st'. induction evs as [|ev evs IH]; intros results st'.
  - reflexivity.
  - csimpl. unfold bind at 1 2 3, lift, emit. simpl.
    destruct (ev input) as [e|d]; [reflexivity | apply IH].
Qed.

(** A key that one dictionary only emits has the same value in the merge,
    whatever the order of the dictionaries. *)
Lemma merge_same_elements_lookup ds ds' k :
  (∀ d, d ∈ ds' ↔ d ∈ ds) →
  (∀ i j di dj,
     ds !! i = Some di → ds !! j = Some dj →
     is_Some (di !! k) → is_Some (dj !! k) → i = j) →
  foldl update ∅ ds' !! k = foldl update ∅ ds !! k.
Proof.
  intros Hmem Huniq.
  pose proof (merge_dom_same_elements ds ds' ∅ Hmem) as Hdom.
  destruct (foldl update ∅ ds !! k) as [v|] eqn:Hseq.
  - assert (is_Some (foldl update ∅ ds' !! k)) as [v' Hpar].
    { apply elem_of_dom. rewrite Hdom. apply elem_of_dom. eauto. }
    rewrite Hpar. f_equal.
    apply merge_lookup_Some in Hseq as [Hseq | (d & Hd & Hv)];
      [by rewrite lookup_empty in Hseq |].
    apply merge_lookup_Some in Hpar as [Hpar | (d' & Hd' & Hv')];
      [by rewrite lookup_empty in Hpar |].
    apply Hmem in Hd'.
    apply list_elem_of_lookup in Hd as [i Hi].
    apply list_elem_of_lookup in Hd' as [j Hj].
    assert (j = i) as -> by (apply (Huniq j i d' d); eauto).
    congruence.
  - apply not_elem_of_dom. rewrite Hdom. by apply not_elem_of_dom.
Qed.

(** ** Concurrent mode, in detail *)

(** X1. In concurrent mode, when every collaborator succeeds, a key has the
    value given by the collaborator whose future [as_completed] yields last
    among those that emit it. (This need not be the collaborator that
    finishes last: see [as_completed].) *)
Theorem concurrent_last_yielded_wins q a c g kw completion st evs ds :
  _parallel (self st) = Some true →
  _evaluators (self st) = Some evs →
  succeed (mkInput q a c g kw) evs ds →
  completion ≡ₚ seq 0 (length evs) →
  ∃ res,
    (__call__ q a c g kw completion st).2 = inr res ∧
    ∀ k p i d,
      completion !! p = Some i →
      ds !! i = Some d →
      is_Some (d !! k) →
      (∀ p' i' d',
         p < p' → completion !! p' = Some i' → ds !! i' = Some d' →
         d' !! k = None) →
      res !! k = d !! k.
Proof.
  intros Hp Hevs Hok Hperm.
  rewrite (call_parallel _ _ _ _ _ _ _ evs) by done.
  destruct (as_completed_succeed completion _ evs ds Hok Hperm)
    as (ds' & -> & _ & Hlook).
  rewrite collect_succeed. exists (foldl update ∅ ds'). split; [done |].
  intros k p i d Hpi Hd Hk Hlast.
  apply (merge_lookup_last _ _ _ p); [apply Hlook; eauto | done |].
  intros p' d' Hlt (i' & Hpi' & Hd')%Hlook. by apply (Hlast p' i').
Qed.

(** X2. In concurrent mode, when some collaborator raises, the call raises
    the exception of the first future, in the order in which [as_completed]
    yields them, that holds an exception; the futures yielded before it held
    results. *)
Theorem concurrent_raises_first_yielded_failure q a c g kw completion st
    evs i0 ev0 e0 :
  let input := mkInput q a c g kw in
  _parallel (self st) = Some true →
  _evaluators (self st) = Some evs →
  completion ≡ₚ seq 0 (length evs) →
  evs !! i0 = Some ev0 →
  ev0 input = inl e0 →
  ∃ p i ev e,
    completion !! p = Some i ∧ evs !! i = Some ev ∧ ev input = inl e ∧
    (∀ p' i' ev',
       p' < p → completion !! p' = Some i' → evs !! i' = Some ev' →
       ∃ d, ev' input = inr d) ∧
    (__call__ q a c g kw completion st).2 = inl e.
Proof.
  intros input Hp Hevs Hperm Hi0 He0.
  rewrite (call_parallel _ _ _ _ _ _ _ evs) by done. fold input.
  set (futures := (λ ev : Evaluator, ev input) <$> evs).
  assert (as_completed completion futures ≡ₚ futures) as Hdone.
  { apply as_completed_Permutation. unfold futures. by rewrite length_fmap. }
  assert (∀ p, as_completed completion futures !! p =
               completion !! p ≫= λ i, futures !! i) as Hlook.
  { intros p. apply as_completed_lookup. intros i Hi.
    unfold futures. rewrite length_fmap.
    by apply (Permutation_in_range completion). }
  assert (∀ i ev, evs !! i = Some ev → futures !! i = Some (ev input)) as Hfut.
  { intros i ev Hi.
    exact (list_lookup_fmap_Some_2 (λ ev : Evaluator, ev input) evs i ev Hi). }
  assert (inl e0 ∈ futures) as Hin.
  { apply (list_elem_of_lookup_2 _ i0). rewrite <- He0. by apply Hfut. }
  destruct (first_raised (as_completed completion futures))
    as [[ds Hds] | (ds & e & post & Hds)]; rewrite Hds in *.
  - exfalso. rewrite <- Hdone in Hin.
    apply list_elem_of_fmap in Hin as (d & Hd & _). discriminate.
  - pose proof (Hlook (length ds)) as Hhere.
    rewrite list_lookup_middle in Hhere by by rewrite length_fmap.
    destruct (completion !! length ds) as [i|] eqn:Hpi; [|done].
    simpl in Hhere. symmetry in Hhere. unfold futures in Hhere.
    apply list_lookup_fmap_Some in Hhere as (ev & Hev & He).
    exists (length ds), i, ev, e. rewrite collect_raise.
    split; [done | split; [done | split; [done | split; [|done]]]].
    intros p' i' ev' Hlt Hpi' Hev'.
    assert (((inr <$> ds) ++ inl e :: post) !! p' = Some (ev' input))
      as Hthere.
    { rewrite Hlook, Hpi'. by apply Hfut. }
    rewrite lookup_app_l, list_lookup_fmap in Hthere by by rewrite length_fmap.
    destruct (ds !! p') as [d|]; [|done].
    exists d. by simplify_eq/=.
Qed.

(** X3. When no two collaborators emit the same key, concurrent and
    sequential mode return the same dictionary, whatever the completion
    order. *)
Theorem disjoint_keys_modes_agree q a c g kw completion completion'
    st_seq st_par evs ds :
  _parallel (self st_seq) = Some false →
  _evaluators (self st_seq) = Some evs →
  _parallel (self st_par) = Some true →
  _evaluators (self st_par) = Some evs →
  succeed (mkInput q a c g kw) evs ds →
  completion ≡ₚ seq 0 (length evs) →
  (∀ k i j di dj,
     ds !! i = Some di → ds !! j = Some dj →
     is_Some (di !! k) → is_Some (dj !! k) → i = j) →
  (__call__ q a c g kw completion st_par).2 =
    (__call__ q a c g kw completion' st_seq).2.
Proof.
  intros Hs Hevs Hp Hevp Hok Hperm Hdisj.
  rewrite (call_sequential _ _ _ _ _ _ st_seq evs), (for_each_succeed _ ds)
    by done.
  rewrite (call_parallel _ _ _ _ _ _ st_par evs) by done.
  destruct (as_completed_succeed completion _ evs ds Hok Hperm)
    as (ds' & -> & Hmem & _).
  rewrite collect_succeed. simpl. f_equal.
  apply map_eq. intros k.
  apply merge_same_elements_lookup; [done | apply Hdisj].
Qed.

(** X4. When [as_completed] yields the futures in the order of their
    submission, the concurrent call returns or raises exactly what the
    sequential call does. *)
Theorem yield_in_submission_order_is_sequential q a c g kw completion'
    st_seq st_par evs :
  _parallel (self st_seq) = Some false →
  _evaluators (self st_seq) = Some evs →
  _parallel (self st_par) = Some true →
  _evaluators (self st_par) = Some evs →
  (__call__ q a c g kw (seq 0 (length evs)) st_par).2 =
    (__call__ q a c g kw completion' st_seq).2.
Proof.
  intros Hs Hevs Hp Hevp.
  rewrite (call_sequential _ _ _ _ _ _ st_seq evs) by done.
  rewrite (call_parallel _ _ _ _ _ _ st_par evs) by done.
  rewrite <- (length_fmap (λ ev : Evaluator, ev (mkInput q a c g kw)) evs).
  rewrite as_completed_submission_order. apply collect_for_each_result.
Qed.

(** ** All or nothing *)

(** X5. In both modes the call returns a dictionary exactly when every
    collaborator returns one. *)
Theorem call_returns_iff_all_succeed q a c g kw completion st
    (parallel : bool) evs :
  let input := mkInput q a c g kw in
  _parallel (self st) = Some parallel →
  _evaluators (self st) = Some evs →
  (parallel = true → completion ≡ₚ seq 0 (length evs)) →
  (∃ res, (__call__ q a c g kw completion st).2 = inr res) ↔
  (∃ ds, succeed input evs ds).
Proof.
  intros input Hp Hevs Hperm.
  destruct (first_failure input evs)
    as [[ds Hok] | (pre & ev & post & ds & e & Hsplit & Hok & He)].
  - split; [eauto |]. intros _. destruct parallel.
    + rewrite (call_parallel _ _ _ _ _ _ _ evs) by done. fold input.
      destruct (as_completed_succeed completion _ evs ds Hok (Hperm eq_refl))
        as (ds' & -> & _).
      rewrite collect_succeed. eauto.
    + rewrite (call_sequential _ _ _ _ _ _ _ evs) by done. fold input.
      rewrite (for_each_succeed _ ds) by done. eauto.
  - assert (evs !! length pre = Some ev) as Hev.
    { rewrite Hsplit. by apply list_lookup_middle. }
    split.
    + intros [res Hres]. exfalso. destruct parallel.
      * rewrite (call_parallel _ _ _ _ _ _ _ evs) in Hres by done.
        fold input in Hres.
        destruct (collect_elem_of_raise
                    (as_completed completion
                       ((λ ev : Evaluator, ev input) <$> evs))
                    e ∅ (mkState (self st)
                           (trace st ++ submissions input evs)))
          as [e' He'].
        { rewrite as_completed_Permutation
            by (rewrite length_fmap; by apply Hperm).
          rewrite <- He.
          apply (list_elem_of_fmap_2 (λ ev : Evaluator, ev input)).
          by apply (list_elem_of_lookup_2 _ (length pre)). }
        rewrite He' in Hres. discriminate.
      * rewrite (call_sequential _ _ _ _ _ _ _ evs) in Hres by done.
        fold input in Hres. rewrite Hsplit in Hres.
        rewrite (for_each_raise _ _ _ ds e) in Hres by done. discriminate.
    + intros [ds' Hok']. exfalso.
      destruct (Forall2_lookup_l _ _ _ _ _ Hok' Hev) as (d & _ & Hd).
      congruence.
Qed.

(** X6. Every entry of a returned dictionary was emitted by a
    collaborator, in either mode and whatever the completion order. *)
Theorem result_entries_come_from_collaborators q a c g kw completion st
    evs res k v :
  let input := mkInput q a c g kw in
  _evaluators (self st) = Some evs →
  (__call__ q a c g kw completion st).2 = inr res →
  res !! k = Some v →
  ∃ i ev d, evs !! i = Some ev ∧ ev input = inr d ∧ d !! k = Some v.
Proof.
  intros input Hevs Hres Hk.
  assert (∀ d, inr d ∈ (λ ev : Evaluator, ev input) <$> evs → d !! k = Some v →
            ∃ i ev d, evs !! i = Some ev ∧ ev input = inr d ∧ d !! k = Some v)
    as Hfrom.
  { intros d (ev & Hd & [i Hi]%list_elem_of_lookup)%list_elem_of_fmap Hv.
    exists i, ev, d. eauto. }
  destruct (_parallel (self st)) as [[]|] eqn:Hp.
  - rewrite (call_parallel _ _ _ _ _ _ _ evs) in Hres by done.
    fold input in Hres.
    destruct (first_raised
                (as_completed completion ((λ ev : Evaluator, ev input) <$> evs)))
      as [[ds Hds] | (ds & e & post & Hds)]; rewrite Hds in Hres.
    + rewrite collect_succeed in Hres. injection Hres as <-.
      apply merge_lookup_Some in Hk as [Hk | (d & Hd & Hv)];
        [by rewrite lookup_empty in Hk |].
      apply (Hfrom d); [|done].
      apply (as_completed_elem_of completion). rewrite Hds.
      by apply list_elem_of_fmap_2.
    + rewrite collect_raise in Hres. discriminate.
  - rewrite (call_sequential _ _ _ _ _ _ _ evs) in Hres by done.
    fold input in Hres.
    destruct (first_failure input evs)
      as [[ds Hok] | (pre & ev & post & ds & e & Hsplit & Hok & He)].
    + rewrite (for_each_succeed _ ds) in Hres by done. injection Hres as <-.
      apply merge_lookup_Some in Hk as [Hk | (d & Hd & Hv)];
        [by rewrite lookup_empty in Hk |].
      apply (Hfrom d); [|done].
      rewrite (succeed_fmap _ _ ds) by done. by apply list_elem_of_fmap_2.
    + rewrite Hsplit, (for_each_raise _ _ _ ds e) in Hres by done.
      discriminate.
  - rewrite call_no_parallel in Hres by done. discriminate.
Qed.

(** ** Construction, then a call *)

(** X7. When the six constructors succeed and the six collaborators they
    build succeed on the input, constructing the object and calling it
    returns a dictionary whose keys are the union of the collaborators'
    keys. The trace is the six constructor calls followed by the six
    collaborator calls: submissions to the pool, unless [parallel] was given
    as [False]. *)
Theorem construct_then_call cfg parallel tr q a c g kw completion
    gr re co fl si f1 ds :
  let input := mkInput q a c g kw in
  let evs := [gr; re; co; fl; si; f1] in
  GroundednessEvaluator cfg = inr gr →
  RelevanceEvaluator cfg = inr re →
  CoherenceEvaluator cfg = inr co →
  FluencyEvaluator cfg = inr fl →
  SimilarityEvaluator cfg = inr si →
  F1ScoreEvaluator = inr f1 →
  succeed input evs ds →
  completion ≡ₚ seq 0 6 →
  ∃ tr' obj res,
    new cfg parallel tr = (tr', inr obj) ∧
    __call__ q a c g kw completion (mkState obj tr') =
      (mkState obj
         (tr ++ constructions cfg ++
          if default true parallel then submissions input evs
          else invocations input evs),
       inr res) ∧
    dom res = ⋃ (dom <$> ds).
Proof.
  intros input evs Hgr Hre Hco Hfl Hsi Hf1 Hok Hperm.
  rewrite (new_succeeds _ _ _ gr re co fl si f1) by done.
  destruct (default true parallel).
  - destruct (as_completed_succeed completion _ evs ds Hok Hperm)
      as (ds' & Hds' & Hmem & _).
    exists (tr ++ constructions cfg),
      (mkQAEvaluator (Some true) (Some evs)), (foldl update ∅ ds').
    split; [reflexivity |].
    rewrite (call_parallel _ _ _ _ _ _ _ evs) by done. fold input.
    rewrite Hds', collect_succeed. simpl. rewrite <- app_assoc.
    split; [reflexivity |].
    rewrite (merge_dom_same_elements ds ds' ∅ Hmem).
    by rewrite merge_dom, dom_empty_L, union_empty_l_L.
  - exists (tr ++ constructions cfg),
      (mkQAEvaluator (Some false) (Some evs)), (foldl update ∅ ds).
    split; [reflexivity |].
    rewrite (call_sequential _ _ _ _ _ _ _ evs) by done. fold input.
    rewrite (for_each_succeed _ ds) by done. simpl. rewrite <- app_assoc.
    split; [reflexivity |].
    by rewrite merge_dom, dom_empty_L, union_empty_l_L.
Qed.

(** ** Failing construction *)

(** X8. Construction raises the exception of the first constructor, in the
    order of the list, that raises; the constructors before it were called,
    those after it were not, and no object is returned. *)
Theorem construction_raises_first_failure cfg parallel tr n e :
  constructor_outcomes cfg !! n = Some (inl e) →
  (∀ m outcome,
     m < n → constructor_outcomes cfg !! m = Some outcome →
     ∃ ev, outcome = inr ev) →
  new cfg parallel tr = (tr ++ take (S n) (constructions cfg), inl e).
Proof.
  intros Hn Hearlier. unfold constructor_outcomes in Hn, Hearlier.
  unfold new, __init__, construct, bind, emit, lift, setattr. simpl.
  destruct n as [|n]; simpl in Hn.
  { injection Hn as ->. reflexivity. }
  destruct (Hearlier 0 _ ltac:(lia) eq_refl) as [gr ->]. simpl.
  destruct n as [|n]; simpl in Hn.
  { injection Hn as ->. simpl. by rewrite <- !app_assoc. }
  destruct (Hearlier 1 _ ltac:(lia) eq_refl) as [re ->]. simpl.
  destruct n as [|n]; simpl in Hn.
  { injection Hn as ->. simpl. by rewrite <- !app_assoc. }
  destruct (Hearlier 2 _ ltac:(lia) eq_refl) as [co ->]. simpl.
  destruct n as [|n]; simpl in Hn.
  { injection Hn as ->. simpl. by rewrite <- !app_assoc. }
  destruct (Hearlier 3 _ ltac:(lia) eq_refl) as [fl ->]. simpl.
  destruct n as [|n]; simpl in Hn.
  { injection Hn as ->. simpl. by rewrite <- !app_assoc. }
  destruct (Hearlier 4 _ ltac:(lia) eq_refl) as [si ->]. simpl.
  destruct n as [|n]; simpl in Hn.
  { injection Hn as ->. simpl. by rewrite <- !app_assoc. }
  discriminate.
Qed.

(** ** Repeated calls *)

(** X9. Nothing is cached between calls: in concurrent mode every call on
    the object submits every collaborator again, with the input of that
    call. *)
Theorem concurrent_calls_submit_every_time calls st evs :
  _parallel (self st) = Some true →
  _evaluators (self st) = Some evs →
  trace (run_calls calls st) =
    trace st ++ concat ((λ cl, submissions (call_input cl) evs) <$> calls).
Proof.
  revert st. induction calls as [|cl calls IH]; intros st Hp Hevs.
  - simpl. by rewrite app_nil_r.
  - simpl. rewrite IH.
    + unfold call at 1. rewrite (call_parallel _ _ _ _ _ _ _ evs) by done.
      rewrite collect_state. simpl. rewrite <- app_assoc.
      by destruct (call_input cl).
    + unfold call. by rewrite call_self.
    + unfold call. by rewrite call_self.
Qed.

End QA.

(** * A worked scenario

    The question of the class's usage example, six collaborators that each
    return one metric, a collaborator that raises, and two collaborators that
    emit the same metric name. Model configurations, exceptions and extra
    keyword values are strings; scores are natural numbers. *)

Module Scenario.

Local Open Scope string_scope.

Abbreviation Collaborator := (@Evaluator string nat string).
Abbreviation Instance := (@QAEvaluator string nat string).
Abbreviation Happening := (@Event string string nat string).

Definition metric (name : string) (score : nat) : Collaborator :=
  λ _, inr {[ name := score ]}.

Definition broken (message : string) : Collaborator :=
  λ _, inl message.

Definition collaborators : list Collaborator :=
  [ metric "gpt_groundedness" 5; metric "gpt_relevance" 4;
    metric "gpt_coherence" 3; metric "gpt_fluency" 2;
    metric "gpt_similarity" 1; metric "f1_score" 0 ].

Definition outputs : list (gmap string nat) :=
  [ {[ "gpt_groundedness" := 5 ]}; {[ "gpt_relevance" := 4 ]};
    {[ "gpt_coherence" := 3 ]}; {[ "gpt_fluency" := 2 ]};
    {[ "gpt_similarity" := 1 ]}; {[ "f1_score" := 0 ]} ].

(** Coherence raises; so does similarity, later in the list. *)
Definition with_failures : list Collaborator :=
  [ metric "gpt_groundedness" 5; metric "gpt_relevance" 4;
    broken "coherence: rate limit"; metric "gpt_fluency" 2;
    broken "similarity: timeout"; metric "f1_score" 0 ].

Definition instance (parallel : bool) (evaluators : list Collaborator)
    : @State string string nat string :=
  mkState (mkQAEvaluator (Some parallel) (Some evaluators)) [].

Definition tokyo : @EvaluationInput string :=
  mkInput "Tokyo is the capital of which country?" "Japan"
    "Tokyo is the capital of Japan." "Japan" {[ "language" := "en" ]}.

Definition ask (completion : list nat)
    : @M string string nat string (gmap string nat) :=
  __call__ "AttributeError" (question tokyo) (answer tokyo)
    (context tokyo) (ground_truth tokyo) (kwargs tokyo) completion.

(** [as_completed] yields the futures in the reverse of the order of
    submission. *)
Definition reversed : list nat := [5; 4; 3; 2; 1; 0].

Lemma reversed_Permutation : reversed ≡ₚ seq 0 6.
Proof. symmetry. exact (Permutation_rev (seq 0 6)). Defined.

Lemma collaborators_succeed : succeed tokyo collaborators outputs.
Proof. repeat constructor. Defined.

(** The imported constructors: each builds the collaborator of its class,
    whatever the configuration. *)
Definition Groundedness_ : string → string + Collaborator :=
  λ _, inr (metric "gpt_groundedness" 5).
Definition Relevance_ : string → string + Collaborator :=
  λ _, inr (metric "gpt_relevance" 4).
Definition Coherence_ : string → string + Collaborator :=
  λ _, inr (metric "gpt_coherence" 3).
Definition Fluency_ : string → string + Collaborator :=
  λ _, inr (metric "gpt_fluency" 2).
Definition Similarity_ : string → string + Collaborator :=
  λ _, inr (metric "gpt_similarity" 1).
Definition F1Score_ : string + Collaborator :=
  inr (metric "f1_score" 0).

Definition QAEvaluator_ (model_config : string) (parallel : option bool) :=
  new Groundedness_ Relevance_ Coherence_ Fluency_ Similarity_ F1Score_
    model_config parallel [].

Lemma sequential_merge_last_wins_witness :
  ∃ res,
    (ask [] (instance false collaborators)).2 = inr res ∧
    dom res = ⋃ (dom <$> outputs) ∧
    ∀ k i d,
      outputs !! i = Some d →
      is_Some (d !! k) →
      (∀ j d', (i < j)%nat → outputs !! j = Some d' → d' !! k = None) →
      res !! k = d !! k.
Proof.
  apply (sequential_merge_last_wins "AttributeError" _ _ _ _ _ []
           (instance false collaborators) collaborators outputs);
    [reflexivity | reflexivity | exact collaborators_succeed].
Defined.

Lemma concurrent_keys_as_sequential_witness :
  ∃ res_seq res_par,
    (ask [] (instance false collaborators)).2 = inr res_seq ∧
    (ask reversed (instance true collaborators)).2 = inr res_par ∧
    dom res_par = dom res_seq ∧
    ∀ k,
      (∀ i j di dj,
         outputs !! i = Some di → outputs !! j = Some dj →
         is_Some (di !! k) → is_Some (dj !! k) → i = j) →
      res_par !! k = res_seq !! k.
Proof.
  apply (concurrent_keys_as_sequential "AttributeError" _ _ _ _ _
           reversed [] (instance false collaborators)
           (instance true collaborators) collaborators outputs);
    [reflexivity | reflexivity | reflexivity | reflexivity
    | exact collaborators_succeed | exact reversed_Permutation].
Defined.

Lemma collaborator_failure_propagates_witness :
  ∃ j ev' e',
    with_failures !! j = Some ev' ∧ ev' tokyo = inl e' ∧
    (ask reversed (instance true with_failures)).2 = inl e' ∧
    ((∀ j' ev'' e'',
        with_failures !! j' = Some ev'' → ev'' tokyo = inl e'' → j' = 2) →
     e' = "coherence: rate limit").
Proof.
  apply (collaborator_failure_propagates "AttributeError" _ _ _ _ _
           reversed (instance true with_failures) true with_failures
           2 (broken "coherence: rate limit") "coherence: rate limit");
    [reflexivity | reflexivity | intros _; exact reversed_Permutation
    | reflexivity | reflexivity].
Defined.

Lemma sequential_stops_at_first_failure_witness :
  ∃ n ev_n e_n,
    (n ≤ 4)%nat ∧ with_failures !! n = Some ev_n ∧ ev_n tokyo = inl e_n ∧
    (∀ m ev_m, (m < n)%nat → with_failures !! m = Some ev_m →
       ∃ d, ev_m tokyo = inr d) ∧
    ask [] (instance false with_failures) =
      (mkState (self (instance false with_failures))
         (trace (instance false with_failures) ++
          invocations tokyo (take (S n) with_failures)),
       inl e_n).
Proof.
  apply (sequential_stops_at_first_failure "AttributeError" _ _ _ _ _ []
           (instance false with_failures) with_failures
           4 (broken "similarity: timeout") "similarity: timeout");
    reflexivity.
Defined.



Lemma parallel_defaults_to_true_witness :
  let obj : Instance := mkQAEvaluator (Some true) (Some collaborators) in
  QAEvaluator_ "gpt-4" None = (constructions "gpt-4", inr obj) ∧
  _parallel obj = Some true ∧
  (∀ q a c g (kw : gmap string string) completion (tr0 : list Happening),
     _parallel
       (self (__call__ "AttributeError" q a c g kw completion
                (mkState obj tr0)).1) = Some true) ∧
  (∀ calls (tr0 : list Happening),
     _parallel (self (run_calls "AttributeError" calls (mkState obj tr0))) =
       Some true).
Proof.
  intros obj. split; [reflexivity |].
  apply (parallel_defaults_to_true "AttributeError" Groundedness_ Relevance_
           Coherence_ Fluency_ Similarity_ F1Score_ "gpt-4" []
           (constructions "gpt-4") obj).
  reflexivity.
Defined.

Lemma evaluators_in_fixed_order_witness :
  (∃ tr' obj,
     QAEvaluator_ "gpt-4" (Some false) = (tr', inr obj) ∧
     _evaluators obj = Some collaborators) ∧
  (∀ q a c g (kw : gmap string string) completion
     (st : @State string string nat string),
     _evaluators (self (__call__ "AttributeError" q a c g kw completion st).1) =
       _evaluators (self st)) ∧
  (∀ calls (st : @State string string nat string),
     _evaluators (self (run_calls "AttributeError" calls st)) =
       _evaluators (self st)) ∧
  ∀ tr' obj q a c g (kw : gmap string string) completion
    (tr0 : list Happening) d_gr d_re d_co d_fl d_si d_f1,
    QAEvaluator_ "gpt-4" (Some false) = (tr', inr obj) →
    succeed (mkInput q a c g kw) collaborators
      [d_gr; d_re; d_co; d_fl; d_si; d_f1] →
    ∃ res,
      (__call__ "AttributeError" q a c g kw completion (mkState obj tr0)).2 =
        inr res ∧
      ∀ k,
        res !! k =
          match d_f1 !! k with Some v => Some v | None =>
          match d_si !! k with Some v => Some v | None =>
          match d_fl !! k with Some v => Some v | None =>
          match d_co !! k with Some v => Some v | None =>
          match d_re !! k with Some v => Some v | None =>
          d_gr !! k end end end end end.
Proof.
  apply (evaluators_in_fixed_order "AttributeError" Groundedness_ Relevance_
           Coherence_ Fluency_ Similarity_ F1Score_ "gpt-4" (Some false) []);
    reflexivity.
Defined.

Lemma sequential_call_deterministic_witness :
  let first := ask [] (instance false with_failures) in
  (∀ st', self st' = self (instance false with_failures) →
     (ask reversed st').2 = first.2) ∧
  (ask reversed first.1).2 = first.2 ∧
  ∀ calls, (ask reversed (run_calls "AttributeError" calls first.1)).2 = first.2.
Proof.
  apply (sequential_call_deterministic "AttributeError" _ _ _ _ _ [] reversed
           (instance false with_failures)).
  reflexivity.
Defined.

(** ** The scenario, run *)

(** Fluency and F1Score both emit ["score"]. *)
Definition colliding : list Collaborator :=
  [ metric "gpt_groundedness" 5; metric "gpt_relevance" 4;
    metric "gpt_coherence" 3; metric "score" 2;
    metric "gpt_similarity" 1; metric "score" 0 ].

Definition value_of (k : string) (outcome : string + gmap string nat)
    : string + option nat :=
  match outcome with
  | inl e => inl e
  | inr res => inr (res !! k)
  end.

Example ask_sequential :
  (ask [] (instance false collaborators)).2 =
    inr (list_to_map
           [ ("gpt_groundedness", 5); ("gpt_relevance", 4);
             ("gpt_coherence", 3); ("gpt_fluency", 2);
             ("gpt_similarity", 1); ("f1_score", 0) ]).
Proof. vm_compute. reflexivity. Qed.

Example ask_concurrent_reversed :
  (ask reversed (instance true collaborators)).2 =
    (ask [] (instance false collaborators)).2.
Proof. vm_compute. reflexivity. Qed.

(** In list order F1Score is merged last and its ["score"] stays; when the
    futures are yielded in reverse, fluency is merged after it. *)
Example collision_sequential :
  value_of "score" (ask [] (instance false colliding)).2 =
    inr (Some 0).
Proof. vm_compute. reflexivity. Qed.

Example collision_concurrent_reversed :
  value_of "score" (ask reversed (instance true colliding)).2 =
    inr (Some 2).
Proof. vm_compute. reflexivity. Qed.

(** Sequentially the loop stops at coherence; with the futures yielded in
    reverse, similarity's exception is met first, and all six calls were
    submitted. *)
Example failure_sequential :
  ask [] (instance false with_failures) =
    (mkState (self (instance false with_failures))
       (invocations tokyo (take 3 with_failures)),
     inl "coherence: rate limit").
Proof. reflexivity. Qed.

Example failure_concurrent_reversed :
  ask reversed (instance true with_failures) =
    (mkState (self (instance true with_failures))
       (submissions tokyo with_failures),
     inl "similarity: timeout").
Proof. reflexivity. Qed.


(** ** The further properties, at the scenario *)

Definition colliding_outputs : list (gmap string nat) :=
  [ {[ "gpt_groundedness" := 5 ]}; {[ "gpt_relevance" := 4 ]};
    {[ "gpt_coherence" := 3 ]}; {[ "score" := 2 ]};
    {[ "gpt_similarity" := 1 ]}; {[ "score" := 0 ]} ].

Lemma colliding_succeed : succeed tokyo colliding colliding_outputs.
Proof. repeat constructor. Defined.

Lemma concurrent_last_yielded_wins_witness :
  ∃ res,
    (ask reversed (instance true colliding)).2 = inr res ∧
    ∀ k p i d,
      reversed !! p = Some i →
      colliding_outputs !! i = Some d →
      is_Some (d !! k) →
      (∀ p' i' d',
         (p < p')%nat → reversed !! p' = Some i' →
         colliding_outputs !! i' = Some d' → d' !! k = None) →
      res !! k = d !! k.
Proof.
  apply (concurrent_last_yielded_wins "AttributeError" _ _ _ _ _ reversed
           (instance true colliding) colliding colliding_outputs);
    [reflexivity | reflexivity | exact colliding_succeed
    | exact reversed_Permutation].
Defined.

Lemma concurrent_raises_first_yielded_failure_witness :
  ∃ p i ev e,
    reversed !! p = Some i ∧ with_failures !! i = Some ev ∧
    ev tokyo = inl e ∧
    (∀ p' i' ev',
       (p' < p)%nat → reversed !! p' = Some i' →
       with_failures !! i' = Some ev' → ∃ d, ev' tokyo = inr d) ∧
    (ask reversed (instance true with_failures)).2 = inl e.
Proof.
  apply (concurrent_raises_first_yielded_failure "AttributeError"
           _ _ _ _ _ reversed (instance true with_failures) with_failures
           2 (broken "coherence: rate limit") "coherence: rate limit");
    [reflexivity | reflexivity | exact reversed_Permutation
    | reflexivity | reflexivity].
Defined.

Lemma outputs_disjoint k i j (di dj : gmap string nat) :
  outputs !! i = Some di → outputs !! j = Some dj →
  is_Some (di !! k) → is_Some (dj !! k) → i = j.
Proof.
  intros Hi Hj [vi Hvi] [vj Hvj].
  destruct i as [|[|[|[|[|[|i]]]]]]; simplify_eq/=;
    apply lookup_singleton_Some in Hvi as [<- _];
    destruct j as [|[|[|[|[|[|j]]]]]]; simplify_eq/=;
    try reflexivity;
    apply lookup_singleton_Some in Hvj as [Hkey _]; discriminate.
Qed.

Lemma disjoint_keys_modes_agree_witness :
  (ask reversed (instance true collaborators)).2 =
    (ask [] (instance false collaborators)).2.
Proof.
  apply (disjoint_keys_modes_agree "AttributeError" _ _ _ _ _ reversed []
           (instance false collaborators) (instance true collaborators)
           collaborators outputs);
    [reflexivity | reflexivity | reflexivity | reflexivity
    | exact collaborators_succeed | exact reversed_Permutation
    | exact outputs_disjoint].
Defined.

Lemma yield_in_submission_order_is_sequential_witness :
  (ask (seq 0 (length with_failures)) (instance true with_failures)).2 =
    (ask reversed (instance false with_failures)).2.
Proof.
  apply (yield_in_submission_order_is_sequential "AttributeError"
           _ _ _ _ _ reversed (instance false with_failures)
           (instance true with_failures) with_failures);
    reflexivity.
Defined.

Lemma call_returns_iff_all_succeed_witness :
  (∃ res, (ask reversed (instance true with_failures)).2 = inr res) ↔
  (∃ ds, succeed tokyo with_failures ds).
Proof.
  apply (call_returns_iff_all_succeed "AttributeError" _ _ _ _ _ reversed
           (instance true with_failures) true with_failures);
    [reflexivity | reflexivity | intros _; exact reversed_Permutation].
Defined.

Lemma result_entries_come_from_collaborators_witness :
  ∃ i ev d,
    colliding !! i = Some ev ∧ ev tokyo = inr d ∧ d !! "score" = Some 2.
Proof.
  apply (result_entries_come_from_collaborators "AttributeError"
           _ _ _ _ _ reversed (instance true colliding) colliding
           (list_to_map
              [ ("gpt_groundedness", 5); ("gpt_relevance", 4);
                ("gpt_coherence", 3); ("score", 2); ("gpt_similarity", 1) ])
           "score" 2);
    [reflexivity | vm_compute; reflexivity | vm_compute; reflexivity].
Defined.

Lemma construct_then_call_witness :
  ∃ tr' obj res,
    QAEvaluator_ "gpt-4" None = (tr', inr obj) ∧
    ask reversed (mkState obj tr') =
      (mkState obj
         ([] ++ constructions "gpt-4" ++ submissions tokyo collaborators)%list,
       inr res) ∧
    dom res = ⋃ (dom <$> outputs).
Proof.
  apply (construct_then_call "AttributeError" Groundedness_ Relevance_
           Coherence_ Fluency_ Similarity_ F1Score_ "gpt-4" None []
           _ _ _ _ _ reversed _ _ _ _ _ _ outputs);
    [reflexivity | reflexivity | reflexivity | reflexivity | reflexivity
    | reflexivity | exact collaborators_succeed | exact reversed_Permutation].
Defined.

(** The deployment is missing: the fluency constructor raises, and so would
    F1Score's. *)
Definition no_Fluency_ : string → string + Collaborator :=
  λ _, inl "fluency: deployment not found".
Definition no_F1Score_ : string + Collaborator :=
  inl "f1: tokenizer missing".

Lemma construction_raises_first_failure_witness :
  new Groundedness_ Relevance_ Coherence_ no_Fluency_ Similarity_ no_F1Score_
    "gpt-4" None [] =
    (([] ++ take 4 (constructions "gpt-4"))%list,
     inl "fluency: deployment not found").
Proof.
  apply (construction_raises_first_failure Groundedness_ Relevance_
           Coherence_ no_Fluency_ Similarity_ no_F1Score_ "gpt-4" None [] 3
           "fluency: deployment not found").
  - reflexivity.
  - intros m outcome Hm Hlook.
    destruct m as [|[|[|m]]]; simplify_eq/=; [eauto .. | lia].
Defined.

Definition twice : list (@Call string) :=
  [ mkCall tokyo reversed; mkCall tokyo [0; 1; 2; 3; 4; 5] ].

Lemma concurrent_calls_submit_every_time_witness :
  trace (run_calls "AttributeError" twice (instance true with_failures)) =
    (trace (instance true with_failures) ++
     concat ((λ cl, submissions (call_input cl) with_failures) <$> twice))%list.
Proof.
  apply (concurrent_calls_submit_every_time "AttributeError" twice
           (instance true with_failures) with_failures);
    reflexivity.
Defined.

End Scenario.
